(** * RepuCycle front end: views, routing and event handling

    A shallow embedding of the React application under
    [src/repu_cycle_frontend/src]: the element trees built by the JSX of
    [App], [Navbar], [Footer], [Home], [Quiz] and [Challenge], the hook state
    of the mounted page, the handler closures attached to the elements, and
    the delivery of user events to those handlers. *)

From Stdlib Require Import String Ascii List ZArith Bool Arith Lia DecimalString.
From Stdlib Require Import Permutation.
Import ListNotations.
Open Scope string_scope.
Open Scope list_scope.

(** ** React elements *)

(** The three functions the JSX passes as props.  A closure is represented by
    its code and the variables it captured at render time. *)
Inductive handler : Type :=
| submitQuiz (answers : list string)
    (* Quiz.jsx 7-10: [() => console.log("...", answers)] *)
| onChangeAnswer (answers : list string)
    (* Quiz.jsx 20: [(e) => setAnswers([...answers, e.target.value])] *)
| linkClick (to : string).
    (* the click handler react-router's [Link] installs on its anchor *)

(** A prop value: a string literal, a number in braces, an imported asset
    (named by its import path), or a function. *)
Inductive prop : Type :=
| PStr (s : string)
| PNum (z : Z)
| PAsset (import_path : string)
| PFun (h : handler).

#[local] Set Warnings "-register-all".

(** An element tree.  [Num] is a number child such as [{challenge.reward}],
    which React prints in decimal. *)
Inductive node : Type :=
| Text (s : string)
| Num (z : Z)
| Elem (tag : string) (props : list (string * prop)) (children : list node).

Fixpoint get_prop (name : string) (ps : list (string * prop)) : option prop :=
  match ps with
  | [] => None
  | (k, v) :: ps' => if String.eqb k name then Some v else get_prop name ps'
  end.

Definition props_of (n : node) : list (string * prop) :=
  match n with
  | Elem _ ps _ => ps
  | _ => []
  end.

Definition children_of (n : node) : list node :=
  match n with
  | Elem _ _ kids => kids
  | _ => []
  end.

Definition is_tag (t : string) (n : node) : bool :=
  match n with
  | Elem t' _ _ => String.eqb t' t
  | _ => false
  end.

(** Decimal text of a number child: what JavaScript prints for a safe
    integer (an integer of magnitude below 2^53). *)
Definition number_text (z : Z) : string :=
  NilZero.string_of_int (Z.to_int z).

(** All text below a node, in document order. *)
Fixpoint textContent (n : node) : string :=
  match n with
  | Text s => s
  | Num z => number_text z
  | Elem _ _ kids => String.concat "" (map textContent kids)
  end.

(** All elements with a given tag, in document order. *)
Fixpoint elements_by_tag (t : string) (n : node) : list node :=
  match n with
  | Text _ => []
  | Num _ => []
  | Elem t' _ kids =>
      (if String.eqb t' t then [n] else []) ++ flat_map (elements_by_tag t) kids
  end.

Definition is_heading_tag (t : string) : bool :=
  existsb (String.eqb t) ["h1"; "h2"; "h3"; "h4"; "h5"; "h6"].

(** Text of every heading element, in document order. *)
Fixpoint headings (n : node) : list string :=
  match n with
  | Text _ => []
  | Num _ => []
  | Elem t _ kids =>
      (if is_heading_tag t then [textContent n] else []) ++ flat_map headings kids
  end.

(** ** Components without state *)

(** [<Link to=...>] of react-router-dom: an anchor whose [href] is the target
    and whose click is handled in the page. *)
Definition Link (to : string) (children : list node) : node :=
  Elem "a" [("href", PStr to); ("onClick", PFun (linkClick to))] children.

(** Navbar.jsx (part_000, lines 5-16). *)
Definition Navbar : node :=
  Elem "nav" [("className", PStr "navbar")]
    [ Elem "h1" [] [Text "RepuCycle"];
      Elem "ul" []
        [ Elem "li" [] [Link "/" [Text "Home"]];
          Elem "li" [] [Link "/quiz" [Text "Quiz"]];
          Elem "li" [] [Link "/challenge" [Text "Challenges"]] ] ].

(** Footer.jsx (part_000, lines 22-28).  [&copy;] is the copyright sign. *)
Definition copyright_sign : string :=
  String (ascii_of_nat 194) (String (ascii_of_nat 169) "").

Definition Footer : node :=
  Elem "footer" [("className", PStr "footer")]
    [ Elem "p" [] [Text (copyright_sign ++ " 2024 RepuCycle. All Rights Reserved.")] ].

(** Home.jsx.  [logo] is the asset imported on line 3. *)
Definition logo : prop := PAsset "../assets/logo.svg".

Definition Home : node :=
  Elem "div" [("className", PStr "home")]
    [ Elem "header" [("className", PStr "home-header")]
        [ Elem "img" [("src", logo); ("className", PStr "home-logo");
                      ("alt", PStr "logo")] [];
          Elem "h1" [] [Text "Welcome to RepuCycle"];
          Elem "p" []
            [Text "Promoting Sustainable Waste Management with Tokenized Incentives."];
          Elem "button" [("className", PStr "get-started")] [Text "Get Started"] ] ].

(** ** Components with state *)

(** Quiz.jsx.  The only hook is [useState([])]; the element tree depends on
    [answers] through the two closures alone. *)
Definition Quiz (answers : list string) : node :=
  Elem "div" [("className", PStr "quiz-page")]
    [ Elem "h2" [] [Text "Waste Management Quiz"];
      Elem "form" [("onSubmit", PFun (submitQuiz answers))]
        [ Elem "label" [] [Text "1. What is the most recyclable material?"];
          Elem "input" [("type", PStr "text");
                        ("onChange", PFun (onChangeAnswer answers))] [];
          Elem "button" [("type", PStr "submit")] [Text "Submit Quiz"] ] ].

(** Challenge.jsx (part_000, lines 34-53). *)
Record challenge : Type := mkChallenge
  { id : Z; description : string; reward : Z }.

Definition initial_challenges : list challenge :=
  [ {| id := 1; description := "Recycle 10kg of plastic"; reward := 50 |};
    {| id := 2; description := "Collect and segregate organic waste"; reward := 30 |} ].

Definition challenge_item (c : challenge) : node :=
  Elem "li" [("key", PNum (id c))]
    [ Text (description c); Text " - Earn "; Num (reward c); Text " tokens";
      Elem "button" [] [Text "Accept Challenge"] ].

Definition Challenge (challenges : list challenge) : node :=
  Elem "div" [("className", PStr "challenge-page")]
    [ Elem "h2" [] [Text "Challenges"];
      Elem "ul" [] (map challenge_item challenges) ].


(** ** Routing (App.jsx, lines 13-17) *)

Inductive view : Type := HomeView | QuizView | ChallengeView.

Definition view_eqb (a b : view) : bool :=
  match a, b with
  | HomeView, HomeView | QuizView, QuizView | ChallengeView, ChallengeView => true
  | _, _ => false
  end.

(** The [<Route path=... element=...>] children of [<Routes>], as declared. *)
Definition routes : list (string * view) :=
  [ ("/", HomeView); ("/quiz", QuizView); ("/challenge", ChallengeView) ].

(** How react-router (version 6, the one with [Routes] and [element]) matches
    a route without parameters against the decoded pathname.  Its
    [compilePath] drops trailing slashes from the pattern, gives it one
    leading slash, and builds the regular expression [^pattern\/*$] with the
    flag [i]: letters match in either case and any number of trailing slashes
    on the pathname are ignored. *)
Definition lower (c : ascii) : ascii :=
  let n := nat_of_ascii c in
  if (65 <=? n)%nat && (n <=? 90)%nat then ascii_of_nat (n + 32) else c.

Definition ascii_eqb_ci (a b : ascii) : bool := Ascii.eqb (lower a) (lower b).

Fixpoint all_slashes (s : string) : bool :=
  match s with
  | EmptyString => true
  | String c s' => Ascii.eqb c "/" && all_slashes s'
  end.

Fixpoint trim_trailing_slashes (s : string) : string :=
  match s with
  | EmptyString => EmptyString
  | String c s' =>
      let r := trim_trailing_slashes s' in
      if Ascii.eqb c "/" && String.eqb r "" then EmptyString else String c r
  end.

Fixpoint drop_leading_slashes (s : string) : string :=
  match s with
  | String c s' => if Ascii.eqb c "/" then drop_leading_slashes s' else s
  | EmptyString => EmptyString
  end.

Definition compilePath (pattern : string) : string :=
  String "/" (drop_leading_slashes (trim_trailing_slashes pattern)).

Fixpoint regexp_match (compiled pathname : string) : bool :=
  match compiled with
  | EmptyString => all_slashes pathname
  | String p compiled' =>
      match pathname with
      | EmptyString => false
      | String c pathname' => ascii_eqb_ci p c && regexp_match compiled' pathname'
      end
  end.

Definition matchPath (pattern pathname : string) : bool :=
  regexp_match (compilePath pattern) pathname.

(** The first route, in the order given, whose pattern matches.
    (react-router ranks the routes before it tries them; the three patterns
    here never match the same pathname, see [routes_exclusive], so the order
    is immaterial.) *)
Fixpoint first_match (rs : list (string * view)) (pathname : string) : option view :=
  match rs with
  | [] => None
  | (pattern, v) :: rs' =>
      if matchPath pattern pathname then Some v else first_match rs' pathname
  end.

(** Before it matches, react-router decodes the pathname ([decodePath]):
    every segment goes through [decodeURIComponent], a decoded slash is
    written back as [%2F], and a pathname with a malformed escape is used as
    it stands.  Strings are sequences of UTF-8 bytes here, so a well-formed
    escape sequence decodes to the bytes it spells. *)
Definition hex_digit (c : ascii) : option nat :=
  let n := nat_of_ascii c in
  if (48 <=? n)%nat && (n <=? 57)%nat then Some (n - 48)%nat
  else if (65 <=? n)%nat && (n <=? 70)%nat then Some (n - 55)%nat
  else if (97 <=? n)%nat && (n <=? 102)%nat then Some (n - 87)%nat
  else None.

Inductive uri_unit : Type :=
| Literal (c : ascii)
| Escaped (octet : nat).

(** Reading the escapes: [%] must be followed by two hexadecimal digits. *)
Fixpoint unescape (s : string) : option (list uri_unit) :=
  match s with
  | EmptyString => Some []
  | String c s1 =>
      if Ascii.eqb c "%" then
        match s1 with
        | String h (String l rest) =>
            match hex_digit h, hex_digit l, unescape rest with
            | Some a, Some b, Some r => Some (Escaped (16 * a + b) :: r)
            | _, _, _ => None
            end
        | _ => None
        end
      else option_map (cons (Literal c)) (unescape s1)
  end.

Definition between (lo hi n : nat) : bool := (lo <=? n)%nat && (n <=? hi)%nat.

Definition octets (l : list nat) (rest : string) : string :=
  fold_right (fun n acc => String (ascii_of_nat n) acc) rest l.

(** The well-formed UTF-8 sequences of two, three and four octets. *)
Definition well_formed2 (b0 b1 : nat) : bool :=
  between 194 223 b0 && between 128 191 b1.

Definition well_formed3 (b0 b1 b2 : nat) : bool :=
  ((Nat.eqb b0 224 && between 160 191 b1)
   || (between 225 236 b0 && between 128 191 b1)
   || (Nat.eqb b0 237 && between 128 159 b1)
   || (between 238 239 b0 && between 128 191 b1))
  && between 128 191 b2.

Definition well_formed4 (b0 b1 b2 b3 : nat) : bool :=
  ((Nat.eqb b0 240 && between 144 191 b1)
   || (between 241 243 b0 && between 128 191 b1)
   || (Nat.eqb b0 244 && between 128 143 b1))
  && between 128 191 b2 && between 128 191 b3.

(** Decoding the units.  An escaped octet below 128 is a character by
    itself (a slash is kept escaped); a higher one must start a well-formed
    sequence whose other octets are escaped too. *)
Fixpoint decode_units (l : list uri_unit) : option string :=
  match l with
  | [] => Some EmptyString
  | Literal c :: r => option_map (String c) (decode_units r)
  | Escaped b0 :: r =>
      if (b0 <? 128)%nat then
        option_map
          (if Nat.eqb b0 47 then append "%2F" else String (ascii_of_nat b0))
          (decode_units r)
      else if between 192 223 b0 then
        match r with
        | Escaped b1 :: r1 =>
            if well_formed2 b0 b1
            then option_map (octets [b0; b1]) (decode_units r1) else None
        | _ => None
        end
      else if between 224 239 b0 then
        match r with
        | Escaped b1 :: Escaped b2 :: r2 =>
            if well_formed3 b0 b1 b2
            then option_map (octets [b0; b1; b2]) (decode_units r2) else None
        | _ => None
        end
      else if between 240 247 b0 then
        match r with
        | Escaped b1 :: Escaped b2 :: Escaped b3 :: r3 =>
            if well_formed4 b0 b1 b2 b3
            then option_map (octets [b0; b1; b2; b3]) (decode_units r3) else None
        | _ => None
        end
      else None
  end.

Definition decodeURIComponent (s : string) : option string :=
  match unescape s with
  | Some l => decode_units l
  | None => None
  end.

Definition decodePath (pathname : string) : string :=
  match decodeURIComponent pathname with
  | Some decoded => decoded
  | None => pathname
  end.

(** [matchRoutes]: an empty pathname counts as ["/"]; the pathname is
    decoded, and the first matching route wins.  The pathname is the one the
    browser reports as [location.pathname]. *)
Definition matchRoutes (pathname : string) : option view :=
  first_match routes (decodePath (if String.eqb pathname "" then "/" else pathname)).

(** ** Application state *)

(** The state of the mounted page component: the [useState] cells of the
    source, and for the quiz the content of its text field, which the
    browser keeps (the [<input>] has no [value] prop). *)
Inductive page : Type :=
| HomePage
| QuizPage (answers : list string) (field : string)
| ChallengePage (challenges : list challenge).

Definition view_of (p : page) : view :=
  match p with
  | HomePage => HomeView
  | QuizPage _ _ => QuizView
  | ChallengePage _ => ChallengeView
  end.

(** First render of a view: [useState] takes its initial value. *)
Definition mount (v : view) : page :=
  match v with
  | HomeView => HomePage
  | QuizView => QuizPage [] ""
  | ChallengeView => ChallengePage initial_challenges
  end.

Record state : Type := mkApp
  { pathname : string;          (* the router's location *)
    mounted : option page }.    (* the page below [<Routes>], if a route matches *)

(** Loading the document at a path. *)
Definition boot (path : string) : state :=
  {| pathname := path; mounted := option_map mount (matchRoutes path) |}.

Definition render_page (p : page) : node :=
  match p with
  | HomePage => Home
  | QuizPage answers _ => Quiz answers
  | ChallengePage challenges => Challenge challenges
  end.

(** [<Routes>] renders the element of the matching route, or nothing. *)
Definition Routes (st : state) : list node :=
  match mounted st with
  | Some p => [render_page p]
  | None => []
  end.

(** App.jsx, lines 9-21.  [<Router>] adds no element of its own. *)
Definition App (st : state) : node :=
  Elem "div" [("className", PStr "App")] ([Navbar] ++ Routes st ++ [Footer]).

(** ** Events *)

(** What a user can do to the rendered page.  A target is the position of a
    node in the tree of [App]: the indices of the children to follow from
    the root. *)
Inductive event : Type :=
| Click (target : list nat)
| Input (target : list nat) (value : string)
    (* an edit of a text field that leaves [value] in it *)
| Key (target : list nat) (c : ascii)
    (* a character typed at the end of a text field *)
| Enter (target : list nat).
    (* the Enter key, pressed where the focus is *)

(** What can be seen from outside the components. *)
Inductive effect : Type :=
| ConsoleLog (message : string) (answers : list string)
| DocumentLoad (path : string).

(** What a handler asks of React, the router or the browser. *)
Inductive action : Type :=
| Log (message : string) (answers : list string)
| SetAnswers (next : list string)
| PreventDefault
| NavigateTo (to : string).

(** Running a handler closure on an event whose [e.target.value] is [value].
    [submitQuiz] takes no parameter, so it has no event object to call
    [preventDefault] on. *)
Definition call (value : string) (h : handler) : list action :=
  match h with
  | submitQuiz answers => [Log "Quiz submitted with answers: " answers]
  | onChangeAnswer answers => [SetAnswers (answers ++ [value])]
  | linkClick to => [PreventDefault; NavigateTo to]
  end.

(** The nodes from the root down to a target, or [None] when the position
    does not exist in the tree. *)
Fixpoint chain (target : list nat) (n : node) : option (list node) :=
  match target with
  | [] => Some [n]
  | i :: target' =>
      match nth_error (children_of n) i with
      | Some kid => option_map (cons n) (chain target' kid)
      | None => None
      end
  end.

Definition target_node (target : list nat) (n : node) : option node :=
  match chain target n with
  | Some nodes => last (map Some nodes) None
  | None => None
  end.

(** The handlers an event reaches: it bubbles from the target to the root. *)
Definition listener (name : string) (n : node) : list handler :=
  match get_prop name (props_of n) with
  | Some (PFun h) => [h]
  | _ => []
  end.

Definition listeners (name : string) (nodes : list node) : list handler :=
  flat_map (listener name) (rev nodes).

(** Client-side navigation: the location changes, and [<Routes>] keeps the
    mounted page when the new location matches the same route, mounts the
    new route's page otherwise. *)
Definition navigate (to : string) (st : state) : state :=
  {| pathname := to;
     mounted :=
       match matchRoutes to with
       | None => None
       | Some v =>
           match mounted st with
           | Some p => if view_eqb (view_of p) v then Some p else Some (mount v)
           | None => Some (mount v)
           end
       end |}.

Definition set_answers (next : list string) (st : state) : state :=
  match mounted st with
  | Some (QuizPage _ field) =>
      {| pathname := pathname st; mounted := Some (QuizPage next field) |}
  | _ => st
  end.

Definition set_field (value : string) (st : state) : state :=
  match mounted st with
  | Some (QuizPage answers _) =>
      {| pathname := pathname st; mounted := Some (QuizPage answers value) |}
  | _ => st
  end.

Definition field_of (st : state) : string :=
  match mounted st with
  | Some (QuizPage _ field) => field
  | _ => ""
  end.

Definition answers_of (st : state) : option (list string) :=
  match mounted st with
  | Some (QuizPage answers _) => Some answers
  | _ => None
  end.

Definition challenges_of (st : state) : option (list challenge) :=
  match mounted st with
  | Some (ChallengePage challenges) => Some challenges
  | _ => None
  end.

(** The result of delivering one DOM event to its handlers. *)
Record outcome : Type := mkOutcome
  { after : state; prevented : bool; seen : list effect }.

Definition perform (o : outcome) (a : action) : outcome :=
  match a with
  | Log message answers =>
      {| after := after o; prevented := prevented o;
         seen := seen o ++ [ConsoleLog message answers] |}
  | SetAnswers next =>
      {| after := set_answers next (after o); prevented := prevented o; seen := seen o |}
  | PreventDefault =>
      {| after := after o; prevented := true; seen := seen o |}
  | NavigateTo to =>
      {| after := navigate to (after o); prevented := prevented o; seen := seen o |}
  end.

Definition dispatch (name value : string) (nodes : list node) (st : state) : outcome :=
  fold_left perform (flat_map (call value) (listeners name nodes))
    {| after := st; prevented := false; seen := [] |}.

(** The longest prefix of a chain that ends in a node satisfying [f]: the
    way down to the nearest such ancestor of the target (or the target). *)
Fixpoint upto_last (f : node -> bool) (nodes : list node) : option (list node) :=
  match nodes with
  | [] => None
  | n :: nodes' =>
      match upto_last f nodes' with
      | Some r => Some (n :: r)
      | None => if f n then Some [n] else None
      end
  end.

Definition is_link (n : node) : bool :=
  is_tag "a" n && match get_prop "href" (props_of n) with Some _ => true | None => false end.

(** A [<button>] submits its form unless its type is [button] or [reset]. *)
Definition is_submit_button (n : node) : bool :=
  is_tag "button" n &&
  match get_prop "type" (props_of n) with
  | Some (PStr t) => negb (String.eqb t "button" || String.eqb t "reset")
  | _ => true
  end.

Definition activates (n : node) : bool := is_link n || is_tag "button" n.

(** Where a form is sent: its [action], or the address of the document. *)
Definition form_action (form : node) (st : state) : string :=
  match get_prop "action" (props_of form) with
  | Some (PStr a) => a
  | _ => pathname st
  end.

(** Submitting the form at the end of [nodes]: React delivers [submit] to
    the [onSubmit] handlers; unless one of them prevents it, the browser
    then sends the form, that is, loads a document anew. *)
Definition submit_form (nodes : list node) (st : state) : state * list effect :=
  let o := dispatch "onSubmit" "" nodes st in
  if prevented o then (after o, seen o)
  else
    let path := form_action (last nodes (Text "")) (after o) in
    (boot path, seen o ++ [DocumentLoad path]).

(** What the browser does after a click that no handler prevented: follow
    the nearest enclosing link, or submit the form of the nearest enclosing
    submit button. *)
Definition default_click (target : list nat) (st : state) : state * list effect :=
  match chain target (App st) with
  | None => (st, [])
  | Some nodes =>
      match upto_last activates nodes with
      | None => (st, [])
      | Some down =>
          let el := last down (Text "") in
          if is_link el then
            match get_prop "href" (props_of el) with
            | Some (PStr href) => (boot href, [DocumentLoad href])
            | _ => (st, [])
            end
          else if is_submit_button el then
            match upto_last (is_tag "form") down with
            | Some form_chain => submit_form form_chain st
            | None => (st, [])
            end
          else (st, [])
      end
  end.

Definition click (target : list nat) (st : state) : state * list effect :=
  match chain target (App st) with
  | None => (st, [])
  | Some nodes =>
      let o := dispatch "onClick" "" nodes st in
      if prevented o then (after o, seen o)
      else
        let (st', more) := default_click target (after o) in
        (st', seen o ++ more)
  end.

(** An edit of a text field: the browser stores the new content, then React
    delivers [change] with [e.target.value] equal to that content. *)
Definition input (target : list nat) (value : string) (st : state) : state * list effect :=
  match chain target (App st) with
  | None => (st, [])
  | Some nodes =>
      if is_tag "input" (last nodes (Text "")) then
        let o := dispatch "onChange" value nodes (set_field value st) in
        (after o, seen o)
      else (st, [])
  end.

(** Every position of a tree, in document order. *)
Fixpoint index_positions (f : node -> list (list nat)) (i : nat) (kids : list node)
  : list (list nat) :=
  match kids with
  | [] => []
  | k :: kids' => map (cons i) (f k) ++ index_positions f (S i) kids'
  end.

Fixpoint all_positions (n : node) : list (list nat) :=
  [] :: match n with
        | Elem _ _ kids => index_positions all_positions 0 kids
        | _ => []
        end.

(** The controls in which Enter submits the form: the single-line fields. *)
Definition is_text_field (n : node) : bool :=
  is_tag "input" n &&
  match get_prop "type" (props_of n) with
  | Some (PStr t) =>
      existsb (String.eqb t)
        ["text"; "search"; "tel"; "url"; "email"; "password"; "date"; "month";
         "week"; "time"; "datetime-local"; "number"]
  | _ => true
  end.

Definition is_at (f : node -> bool) (n : node) (p : list nat) : bool :=
  match chain p n with
  | Some nodes => f (last nodes (Text ""))
  | None => false
  end.

(** The Enter key.  In a single-line field of a form the browser clicks the
    form's first submit button; a form without one is sent directly when it
    has no second such field; nothing is typed into the field.  On a button
    or a link that has the focus, Enter is a click on it. *)
Definition enter (target : list nat) (st : state) : state * list effect :=
  match chain target (App st) with
  | None => (st, [])
  | Some nodes =>
      let el := last nodes (Text "") in
      if is_text_field el then
        match upto_last (is_tag "form") nodes with
        | None => (st, [])
        | Some form_chain =>
            let form := last form_chain (Text "") in
            let form_position := firstn (length form_chain - 1) target in
            match filter (is_at is_submit_button form) (all_positions form) with
            | button :: _ => click (form_position ++ button) st
            | [] =>
                if (length (filter (is_at is_text_field form) (all_positions form))
                    <=? 1)%nat
                then submit_form form_chain st
                else (st, [])
            end
        end
      else if activates el then click target st
      else (st, [])
  end.

Definition step (st : state) (ev : event) : state * list effect :=
  match ev with
  | Click target => click target st
  | Input target value => input target value st
  | Key target c => input target (field_of st ++ String c "") st
  | Enter target => enter target st
  end.

(** Events are handled one at a time, each to completion. *)
Fixpoint run (st : state) (evs : list event) : state * list effect :=
  match evs with
  | [] => (st, [])
  | ev :: evs' =>
      let (st1, out1) := step st ev in
      let (st2, out2) := run st1 evs' in
      (st2, out1 ++ out2)
  end.

(** Positions in the tree of [App] that the statements below refer to. *)
Definition quiz_input : list nat := [1; 1; 1]%nat.
Definition quiz_submit_button : list nat := [1; 1; 2]%nat.
Definition get_started_button : list nat := [1; 0; 3]%nat.
Definition accept_button (i : nat) : list nat := [1; 1; i; 4]%nat.
Definition nav_link (i : nat) : list nat := [0; 1; i; 0]%nat.

(** ** Vocabulary of the statements *)

(** The targets of the anchors of a tree, in document order. *)
Definition href_of (n : node) : list string :=
  match get_prop "href" (props_of n) with
  | Some (PStr h) => [h]
  | _ => []
  end.

Definition link_targets (n : node) : list string :=
  flat_map href_of (elements_by_tag "a" n).

(** A button with a given caption. *)
Definition is_button_named (caption : string) (n : node) : bool :=
  is_tag "button" n && String.eqb (textContent n) caption.

(** The application with the quiz mounted. *)
Definition quiz_state (path : string) (answers : list string) (field : string) : state :=
  {| pathname := path; mounted := Some (QuizPage answers field) |}.

(** The non-empty prefixes of a string, shortest first. *)
Fixpoint prefixes (s : string) : list string :=
  match s with
  | EmptyString => []
  | String c s' => String c "" :: map (String c) (prefixes s')
  end.

(** The keystrokes that type a string into the quiz's text field, one for
    each character of a string of typeable characters. *)
Definition typing (s : string) : list event :=
  map (Key quiz_input) (list_ascii_of_string s).

(** A pathname in lower case and without trailing slashes. *)
Fixpoint lower_string (s : string) : string :=
  match s with
  | EmptyString => EmptyString
  | String c s' => String (lower c) (lower_string s')
  end.

Definition normalize (pathname : string) : string :=
  trim_trailing_slashes (lower_string pathname).

(** The form under which the router compares a pathname with the routes:
    decoded, in lower case and without trailing slashes. *)
Definition canonical (pathname : string) : string :=
  normalize (decodePath pathname).

(** The challenge list never differs from its initial value. *)
Definition challenges_fixed (st : state) : Prop :=
  forall cs, challenges_of st = Some cs -> cs = initial_challenges.

(** The mounted page is the one the router selects for the location. *)
Definition route_consistent (st : state) : Prop :=
  option_map view_of (mounted st) = matchRoutes (pathname st).

(** The text of the list item of a challenge. *)
Definition item_text (c : challenge) : string :=
  description c ++ " - Earn " ++ number_text (reward c) ++ " tokens"
  ++ "Accept Challenge".

(** The text field of the quiz shows the answer stored last. *)
Definition field_shows_last_answer (st : state) : Prop :=
  forall answers field,
    mounted st = Some (QuizPage answers field) -> field = last answers "".

(** The events that submit the quiz: a click on the submit button or on
    its caption, and the Enter key in the text field or on the button. *)
Definition is_submit_click (ev : event) : Prop :=
  ev = Click quiz_submit_button \/ ev = Click (quiz_submit_button ++ [0%nat]).

Definition is_submission (ev : event) : Prop :=
  is_submit_click ev \/ ev = Enter quiz_input \/ ev = Enter quiz_submit_button.

(** An event that changes the quiz's text field, leaving [value] in it. *)
Definition is_change_to (field value : string) (ev : event) : Prop :=
  ev = Input quiz_input value \/
  exists c, ev = Key quiz_input c /\ value = (field ++ String c "")%string.

(** The characters a key of the keyboard types: printable ASCII. *)
Definition typeable (c : ascii) : bool :=
  (32 <=? nat_of_ascii c)%nat && (nat_of_ascii c <=? 126)%nat.

(** A [Key] event as a user produces it: a typeable character, typed into
    a text field of the page. *)
Definition typed_into_field (st : state) (ev : event) : Prop :=
  match ev with
  | Key target c =>
      typeable c = true /\ is_at is_text_field (App st) target = true
  | _ => True
  end.

(** JavaScript prints an integer in plain decimal, and holds it exactly,
    when it is a safe integer. *)
Definition safe_integer (z : Z) : Prop := (Z.abs z <= 2 ^ 53 - 1)%Z.

(** A challenge record as the literal of the source has them. *)
Definition plain_challenge (c : challenge) : Prop :=
  safe_integer (id c) /\ safe_integer (reward c) /\ description c <> "".

(** * Properties *)

(** ** Positions and chains *)

Lemma index_positions_in (f : node -> list (list nat)) kids :
  forall i j kid p,
    nth_error kids j = Some kid -> In p (f kid) ->
    In ((i + j)%nat :: p) (index_positions f i kids).
Proof.
  induction kids as [|k kids IH]; intros i j kid p Hnth Hin.
  - destruct j; discriminate.
  - simpl. apply in_or_app. destruct j as [|j]; simpl in Hnth.
    + injection Hnth as ->. left. rewrite Nat.add_0_r. now apply in_map.
    + right. replace (i + S j)%nat with (S i + j)%nat by lia. eauto.
  Qed.

(** A position that exists in a tree is listed by [all_positions]. *)
Lemma chain_positions : forall p n nodes,
  chain p n = Some nodes -> In p (all_positions n).
Proof.
  induction p as [|i p IH]; intros n nodes H.
  - destruct n; simpl; auto.
  - simpl in H. destruct n as [s|z|t ps kids]; simpl in H;
      try (destruct i; discriminate).
    destruct (nth_error kids i) as [kid|] eqn:Hk; [|discriminate].
    destruct (chain p kid) as [nodes'|] eqn:Hc; [|discriminate].
    simpl. right. apply (index_positions_in all_positions kids 0 i kid p Hk).
    eapply IH; eauto.
Qed.

Lemma chain_none_click target st :
  chain target (App st) = None -> click target st = (st, []).
Proof. unfold click. now intros ->. Qed.

Lemma chain_none_input target value st :
  chain target (App st) = None -> input target value st = (st, []).
Proof. unfold input. now intros ->. Qed.

Lemma chain_none_enter target st :
  chain target (App st) = None -> enter target st = (st, []).
Proof. unfold enter. now intros ->. Qed.

(** To know what an event does at every target, it is enough to look at the
    positions of the rendered tree. *)
Lemma by_positions (st : state) (Q : list nat -> Prop) :
  (forall p, chain p (App st) = None -> Q p) ->
  (forall p, In p (all_positions (App st)) -> Q p) ->
  forall p, Q p.
Proof.
  intros Hnone Hin p. destruct (chain p (App st)) as [nodes|] eqn:H.
  - apply Hin. eapply chain_positions; eauto.
  - now apply Hnone.
Qed.

(** ** Invariants of the event loop *)

Section Preservation.

Variable P : state -> Prop.
Hypothesis P_boot : forall path, P (boot path).
Hypothesis P_navigate : forall to st, P st -> P (navigate to st).
Hypothesis P_set_answers : forall next st, P st -> P (set_answers next st).
Hypothesis P_set_field : forall value st, P st -> P (set_field value st).

Lemma perform_preserves o a : P (after o) -> P (after (perform o a)).
Proof. destruct a; simpl; auto. Qed.

Lemma actions_preserve acts : forall o,
  P (after o) -> P (after (fold_left perform acts o)).
Proof.
  induction acts as [|a acts IH]; simpl; intros o H; auto.
  apply IH. now apply perform_preserves.
Qed.

Lemma dispatch_preserves name value nodes st :
  P st -> P (after (dispatch name value nodes st)).
Proof. intros H. unfold dispatch. now apply actions_preserve. Qed.

Lemma submit_form_preserves nodes st : P st -> P (fst (submit_form nodes st)).
Proof.
  intros H. unfold submit_form.
  destruct (prevented _); simpl; auto using dispatch_preserves.
Qed.

Lemma default_click_preserves target st : P st -> P (fst (default_click target st)).
Proof.
  intros H. unfold default_click.
  destruct (chain target (App st)) as [nodes|]; simpl; auto.
  destruct (upto_last activates nodes) as [down|]; simpl; auto.
  destruct (is_link _).
  - destruct (get_prop "href" _) as [[h| | |]|]; simpl; auto.
  - destruct (is_submit_button _); simpl; auto.
    destruct (upto_last (is_tag "form") down); simpl; auto.
    now apply submit_form_preserves.
Qed.

Lemma click_preserves target st : P st -> P (fst (click target st)).
Proof.
  intros H. unfold click.
  destruct (chain target (App st)) as [nodes|]; simpl; auto.
  pose proof (dispatch_preserves "onClick" "" nodes st H) as Hd.
  destruct (prevented _); simpl; auto.
  pose proof (default_click_preserves target _ Hd) as Hc.
  destruct (default_click target _); simpl in *; auto.
Qed.

Lemma input_preserves target value st : P st -> P (fst (input target value st)).
Proof.
  intros H. unfold input.
  destruct (chain target (App st)) as [nodes|]; simpl; auto.
  destruct (is_tag "input" _); simpl; auto.
  apply dispatch_preserves. auto.
Qed.

Lemma enter_preserves target st : P st -> P (fst (enter target st)).
Proof.
  intros H. unfold enter.
  destruct (chain target (App st)) as [nodes|]; simpl; auto.
  destruct (is_text_field _).
  - destruct (upto_last (is_tag "form") nodes) as [form_chain|]; simpl; auto.
    destruct (filter _ _); [|now apply click_preserves].
    destruct (_ <=? 1)%nat; simpl; auto using submit_form_preserves.
  - destruct (activates _); simpl; auto using click_preserves.
Qed.

Lemma step_preserves st ev : P st -> P (fst (step st ev)).
Proof.
  destruct ev; simpl; auto using click_preserves, input_preserves, enter_preserves.
Qed.

Lemma run_preserves evs : forall st, P st -> P (fst (run st evs)).
Proof.
  induction evs as [|ev evs IH]; simpl; intros st H; auto.
  pose proof (step_preserves st ev H) as Hs.
  destruct (step st ev) as [st1 out1]. simpl in Hs.
  specialize (IH st1 Hs). destruct (run st1 evs). auto.
Qed.

Lemma reachable_preserves path evs : P (fst (run (boot path) evs)).
Proof. apply run_preserves, P_boot. Qed.

End Preservation.

Lemma view_eqb_eq a b : view_eqb a b = true <-> a = b.
Proof. destruct a, b; simpl; split; congruence. Qed.

Lemma challenges_fixed_reachable path evs :
  challenges_fixed (fst (run (boot path) evs)).
Proof.
  apply reachable_preserves; unfold challenges_fixed, challenges_of.
  - intros p cs. unfold boot. simpl.
    destruct (matchRoutes p) as [[]|]; simpl; congruence.
  - intros to st H cs. unfold navigate. simpl.
    destruct (matchRoutes to) as [v|]; [|discriminate].
    destruct (mounted st) as [pg|].
    + destruct (view_eqb (view_of pg) v); [now auto|].
      destruct v; simpl; congruence.
    + destruct v; simpl; congruence.
  - intros next st H cs. unfold set_answers.
    destruct (mounted st) as [[| |]|] eqn:Hm; simpl; rewrite ?Hm; auto; congruence.
  - intros value st H cs. unfold set_field.
    destruct (mounted st) as [[| |]|] eqn:Hm; simpl; rewrite ?Hm; auto; congruence.
Qed.

Lemma route_consistent_reachable path evs :
  route_consistent (fst (run (boot path) evs)).
Proof.
  apply reachable_preserves; unfold route_consistent.
  - intros p. unfold boot. simpl. now destruct (matchRoutes p) as [[]|].
  - intros to st _. unfold navigate. simpl.
    destruct (matchRoutes to) as [v|]; [|reflexivity].
    destruct (mounted st) as [pg|]; simpl.
    + destruct (view_eqb (view_of pg) v) eqn:Hv; simpl.
      * apply view_eqb_eq in Hv. now rewrite Hv.
      * now destruct v.
    + now destruct v.
  - intros next st H. unfold set_answers.
    destruct (mounted st) as [[| |]|] eqn:Hm; simpl; rewrite ?Hm; auto.
  - intros value st H. unfold set_field.
    destruct (mounted st) as [[| |]|] eqn:Hm; simpl; rewrite ?Hm; auto.
Qed.

(** ** The quiz's text field *)

Lemma input_appends path answers field value :
  step (quiz_state path answers field) (Input quiz_input value)
  = (quiz_state path (answers ++ [value]) value, []).
Proof. reflexivity. Qed.

Lemma key_appends path answers field c :
  step (quiz_state path answers field) (Key quiz_input c)
  = (quiz_state path (answers ++ [(field ++ String c "")%string]) (field ++ String c "")%string, []).
Proof. reflexivity. Qed.

Lemma last_cons_default (x : string) l : forall d d', last (x :: l) d = last (x :: l) d'.
Proof.
  revert x. induction l as [|y l IH]; intros x d d'; [reflexivity|].
  change (last (x :: y :: l) d) with (last (y :: l) d).
  change (last (x :: y :: l) d') with (last (y :: l) d'). apply IH.
Qed.

Lemma run_inputs values : forall path answers field,
  run (quiz_state path answers field) (map (Input quiz_input) values)
  = (quiz_state path (answers ++ values) (last values field), []).
Proof.
  induction values as [|v values IH]; intros path answers field.
  - simpl. now rewrite app_nil_r.
  - change (map (Input quiz_input) (v :: values))
      with (Input quiz_input v :: map (Input quiz_input) values).
    cbn [run]. rewrite input_appends, IH, <- app_assoc. simpl List.app.
    destruct values as [|v' values]; [reflexivity|].
    now rewrite (last_cons_default v' values v field).
Qed.

Lemma append_assoc (a b c : string) : ((a ++ b) ++ c = a ++ (b ++ c))%string.
Proof. induction a as [|x a IH]; simpl; [reflexivity | now rewrite IH]. Qed.

Lemma append_empty_r (a : string) : (a ++ "")%string = a.
Proof. induction a as [|x a IH]; simpl; [reflexivity | now rewrite IH]. Qed.

Lemma run_typing w : forall path answers field,
  run (quiz_state path answers field) (typing w)
  = (quiz_state path (answers ++ map (append field) (prefixes w)) (field ++ w)%string, []).
Proof.
  unfold typing.
  induction w as [|c w IH]; intros path answers field.
  - simpl. now rewrite app_nil_r, append_empty_r.
  - change (map (Key quiz_input) (list_ascii_of_string (String c w)))
      with (Key quiz_input c :: map (Key quiz_input) (list_ascii_of_string w)).
    cbn [run]. rewrite key_appends, IH, <- app_assoc. simpl.
    rewrite map_map, append_assoc. simpl.
    f_equal. f_equal. f_equal. f_equal.
    apply map_ext. intros p. now rewrite append_assoc.
Qed.

Lemma prefixes_length w : length (prefixes w) = String.length w.
Proof. induction w as [|c w IH]; simpl; [reflexivity | now rewrite length_map, IH]. Qed.

Lemma prefixes_substring w :
  prefixes w = map (fun i => substring 0 (S i) w) (seq 0 (String.length w)).
Proof.
  induction w as [|c w IH]; [reflexivity|].
  simpl. f_equal.
  - now destruct w.
  - rewrite IH, map_map, <- seq_shift, map_map. reflexivity.
Qed.

(** C2. Each change event on the quiz's text input leaves an answer sequence
    one entry longer: the old entries in their order, then the value of the
    field.  After n change events on a fresh quiz the sequence holds the n
    values in the order they came. *)
Theorem quiz_change_appends_one_entry :
  (forall path answers field value,
      exists answers',
        answers_of (fst (step (quiz_state path answers field) (Input quiz_input value)))
        = Some answers' /\
        length answers' = S (length answers) /\
        firstn (length answers) answers' = answers /\
        skipn (length answers) answers' = [value]) /\
  (forall path answers field values,
      answers_of (fst (run (quiz_state path answers field) (map (Input quiz_input) values)))
      = Some (answers ++ values)) /\
  (forall values,
      let st := fst (run (boot "/quiz") (map (Input quiz_input) values)) in
      answers_of st = Some values /\
      option_map (@length string) (answers_of st) = Some (length values)).
Proof.
  split; [|split].
  - intros path answers field value. exists (answers ++ [value]).
    rewrite input_appends. simpl. repeat split.
    + rewrite length_app. simpl. lia.
    + rewrite firstn_app, Nat.sub_diag, firstn_all. simpl. apply app_nil_r.
    + rewrite skipn_app, Nat.sub_diag, skipn_all. reflexivity.
  - intros. now rewrite run_inputs.
  - intros values st. subst st.
    change (boot "/quiz") with (quiz_state "/quiz" [] "").
    rewrite run_inputs. simpl. auto.
Qed.

(** C10. The value a change event appends is the whole content of the field
    at that moment, whatever it is (the empty string and values already in
    the sequence included): a keystroke appends the content after the
    keystroke, not the character typed.  Typing a k-character answer one
    character at a time on a fresh quiz stores its k non-empty prefixes,
    shortest first. *)
Theorem quiz_change_stores_field_content :
  (forall path answers field value,
      let st' := fst (step (quiz_state path answers field) (Input quiz_input value)) in
      answers_of st' = Some (answers ++ [value]) /\ field_of st' = value) /\
  (forall path answers field c,
      let st' := fst (step (quiz_state path answers field) (Key quiz_input c)) in
      answers_of st' = Some (answers ++ [(field ++ String c "")%string]) /\
      field_of st' = (field ++ String c "")%string) /\
  answers_of (fst (run (boot "/quiz")
                     [Input quiz_input "a"; Input quiz_input ""; Input quiz_input "a"]))
  = Some ["a"; ""; "a"] /\
  (forall w,
      answers_of (fst (run (boot "/quiz") (typing w))) = Some (prefixes w) /\
      length (prefixes w) = String.length w /\
      prefixes w = map (fun i => substring 0 (S i) w) (seq 0 (String.length w))).
Proof.
  repeat split.
  - change (boot "/quiz") with (quiz_state "/quiz" [] "").
    rewrite run_typing. simpl. now rewrite map_id.
  - apply prefixes_length.
  - apply prefixes_substring.
Qed.

(** ** The challenge view *)

(** C6. The challenge list is the two-record literal when the challenge view
    is first rendered, and it is that literal after every sequence of
    events. *)
Theorem challenge_list_never_changes path evs cs :
  challenges_of (fst (run (boot path) evs)) = Some cs ->
  mount ChallengeView = ChallengePage cs /\
  cs = [ {| id := 1; description := "Recycle 10kg of plastic"; reward := 50 |};
         {| id := 2; description := "Collect and segregate organic waste";
            reward := 30 |} ].
Proof.
  intros H. apply challenges_fixed_reachable in H. subst cs. split; reflexivity.
Qed.

Lemma challenge_list_never_changes_witness :
  challenges_of (fst (run (boot "/challenge")
                        [Click (accept_button 0); Click (nav_link 2);
                         Click (accept_button 1)]))
  = Some initial_challenges /\
  initial_challenges
  = [ {| id := 1; description := "Recycle 10kg of plastic"; reward := 50 |};
      {| id := 2; description := "Collect and segregate organic waste";
         reward := 30 |} ].
Proof.
  split; [reflexivity|].
  apply (challenge_list_never_changes "/challenge"
           [Click (accept_button 0); Click (nav_link 2); Click (accept_button 1)]
           initial_challenges).
  reflexivity.
Defined.

Lemma mounted_challenge_reachable path evs :
  option_map view_of (mounted (fst (run (boot path) evs))) = Some ChallengeView ->
  mounted (fst (run (boot path) evs)) = Some (ChallengePage initial_challenges).
Proof.
  intros H. pose proof (challenges_fixed_reachable path evs) as Hfix.
  unfold challenges_fixed, challenges_of in Hfix.
  destruct (mounted _) as [[| |cs]|]; try discriminate.
  now rewrite (Hfix cs eq_refl).
Qed.

(** C3. Whenever the challenge view is on the page, it shows exactly two
    list items, in the order of the literal: the item of challenge 1
    ("Recycle 10kg of plastic", 50 tokens), then the item of challenge 2
    ("Collect and segregate organic waste", 30 tokens). *)
Theorem challenge_view_renders_two_items path evs :
  let st := fst (run (boot path) evs) in
  option_map view_of (mounted st) = Some ChallengeView ->
  let items := flat_map (elements_by_tag "li") (Routes st) in
  length items = 2%nat /\
  items =
    [ Elem "li" [("key", PNum 1)]
        [ Text "Recycle 10kg of plastic"; Text " - Earn "; Num 50; Text " tokens";
          Elem "button" [] [Text "Accept Challenge"] ];
      Elem "li" [("key", PNum 2)]
        [ Text "Collect and segregate organic waste"; Text " - Earn "; Num 30;
          Text " tokens"; Elem "button" [] [Text "Accept Challenge"] ] ] /\
  map textContent items =
    [ "Recycle 10kg of plastic - Earn 50 tokensAccept Challenge";
      "Collect and segregate organic waste - Earn 30 tokensAccept Challenge" ].
Proof.
  intros st H items. subst items. unfold Routes.
  subst st. rewrite (mounted_challenge_reachable path evs H).
  repeat split.
Qed.

Lemma challenge_view_renders_two_items_witness :
  length (flat_map (elements_by_tag "li") (Routes (boot "/challenge"))) = 2%nat.
Proof.
  apply (challenge_view_renders_two_items "/challenge" []). reflexivity.
Defined.

(** ** Routes and navigation links *)

(** C4. At each of the three paths the application renders the heading of
    the corresponding view: "Welcome to RepuCycle" at [/], "Waste Management
    Quiz" at [/quiz], "Challenges" at [/challenge]; the title of the
    navigation bar is the only other heading. *)
Theorem routes_render_view_headings :
  (flat_map headings (Routes (boot "/")) = ["Welcome to RepuCycle"] /\
   flat_map headings (Routes (boot "/quiz")) = ["Waste Management Quiz"] /\
   flat_map headings (Routes (boot "/challenge")) = ["Challenges"]) /\
  (headings (App (boot "/")) = ["RepuCycle"; "Welcome to RepuCycle"] /\
   headings (App (boot "/quiz")) = ["RepuCycle"; "Waste Management Quiz"] /\
   headings (App (boot "/challenge")) = ["RepuCycle"; "Challenges"]) /\
  (forall st,
     headings (App (navigate "/" st)) = ["RepuCycle"; "Welcome to RepuCycle"] /\
     headings (App (navigate "/quiz" st)) = ["RepuCycle"; "Waste Management Quiz"]) /\
  (forall path evs,
     headings (App (navigate "/challenge" (fst (run (boot path) evs))))
     = ["RepuCycle"; "Challenges"]).
Proof.
  split; [|split; [|split]].
  - repeat split.
  - repeat split.
  - intros [loc [[|answers field|cs]|]]; split; reflexivity.
  - intros path evs.
    pose proof (mounted_challenge_reachable path evs) as H.
    destruct (fst (run (boot path) evs)) as [loc [[|answers field|cs]|]];
      try reflexivity.
    simpl in H. specialize (H eq_refl). injection H as ->. reflexivity.
Qed.

(** C8. The navigation bar renders one title and exactly three links; their
    targets are [/], [/quiz] and [/challenge], which are the paths of the
    three routes, each leading to the view of its route. *)
Theorem navbar_links_are_the_routes :
  headings Navbar = ["RepuCycle"] /\
  length (elements_by_tag "a" Navbar) = 3%nat /\
  link_targets Navbar = ["/"; "/quiz"; "/challenge"] /\
  link_targets Navbar = map fst routes /\
  map matchRoutes (link_targets Navbar) = map (fun r => Some (snd r)) routes /\
  (forall st,
     map (fun i => target_node (nav_link i) (App st)) [0; 1; 2]%nat
     = [ Some (Link "/" [Text "Home"]); Some (Link "/quiz" [Text "Quiz"]);
         Some (Link "/challenge" [Text "Challenges"]) ] /\
     map (fun i => step st (Click (nav_link i))) [0; 1; 2]%nat
     = [ (navigate "/" st, []); (navigate "/quiz" st, []);
         (navigate "/challenge" st, []) ]).
Proof.
  repeat split.
Qed.

(** ** Buttons without behaviour *)

(** The pages a sequence of events can leave mounted. *)
Lemma reachable_pages path evs :
  exists loc, fst (run (boot path) evs) = {| pathname := loc; mounted := None |} \/
              fst (run (boot path) evs) = {| pathname := loc; mounted := Some HomePage |} \/
              (exists answers field, fst (run (boot path) evs) = quiz_state loc answers field) \/
              fst (run (boot path) evs)
              = {| pathname := loc; mounted := Some (ChallengePage initial_challenges) |}.
Proof.
  pose proof (mounted_challenge_reachable path evs) as H.
  destruct (fst (run (boot path) evs)) as [loc [[|answers field|cs]|]]; exists loc; auto.
  - right; right; left. now exists answers, field.
  - simpl in H. specialize (H eq_refl). injection H as ->. auto.
Qed.

Lemma target_node_position target n b :
  target_node target n = Some b -> In target (all_positions n).
Proof.
  unfold target_node. destruct (chain target n) eqn:H; [|discriminate].
  intros _. eapply chain_positions; eauto.
Qed.

Ltac each_position H :=
  simpl in H;
  repeat (destruct H as [H | H]; [symmetry in H; subst | ]);
  try contradiction.

(** C5. After any sequence of events, a click on an "Accept Challenge" or on
    the "Get Started" button reaches no handler and changes nothing: the
    state of the components and the location stay as they are, so the page
    renders as before, and nothing is printed or loaded. *)
Theorem inert_buttons_do_nothing path evs target button :
  let st := fst (run (boot path) evs) in
  target_node target (App st) = Some button ->
  is_button_named "Accept Challenge" button || is_button_named "Get Started" button = true ->
  (exists nodes, chain target (App st) = Some nodes /\
                 listeners "onClick" nodes = [] /\
                 listeners "onSubmit" nodes = []) /\
  step st (Click target) = (st, []) /\
  App (fst (step st (Click target))) = App st.
Proof.
  intros st Ht Hb.
  pose proof (reachable_pages path evs) as R. fold st in R. clearbody st.
  destruct R as [loc [-> | [-> | [(answers & field & ->) | ->]]]];
    pose proof (target_node_position _ _ _ Ht) as Hin;
    each_position Hin;
    injection Ht as <-; try discriminate Hb;
    (split; [eexists; repeat split | split; reflexivity]).
Qed.

Lemma inert_buttons_do_nothing_witness :
  step (boot "/challenge") (Click (accept_button 1)) = (boot "/challenge", []) /\
  step (boot "/") (Click get_started_button) = (boot "/", []).
Proof.
  split.
  - apply (inert_buttons_do_nothing "/challenge" [] (accept_button 1)
             (Elem "button" [] [Text "Accept Challenge"])); reflexivity.
  - apply (inert_buttons_do_nothing "/" [] get_started_button
             (Elem "button" [("className", PStr "get-started")] [Text "Get Started"]));
      reflexivity.
Defined.

(** ** Lifetime of the quiz's answers *)

Lemma navigate_away_from_quiz path answers field to :
  matchRoutes to <> Some QuizView ->
  navigate to (quiz_state path answers field) = boot to.
Proof.
  intros H. unfold navigate, boot. simpl.
  destruct (matchRoutes to) as [[]|]; simpl; congruence.
Qed.

(** An event on a page without the quiz can bring the quiz only in its
    initial state. *)
Lemma step_mounts_fresh_quiz st ev :
  (exists loc, st = {| pathname := loc; mounted := None |} \/
               st = {| pathname := loc; mounted := Some HomePage |} \/
               st = {| pathname := loc; mounted := Some (ChallengePage initial_challenges) |}) ->
  answers_of (fst (step st ev)) = None \/
  mounted (fst (step st ev)) = Some (QuizPage [] "").
Proof.
  intros [loc Hst].
  assert (Hclick : forall target,
             answers_of (fst (click target st)) = None \/
             mounted (fst (click target st)) = Some (QuizPage [] "")).
  { apply (by_positions st).
    - intros p Hp. rewrite (chain_none_click _ _ Hp).
      destruct Hst as [-> | [-> | ->]]; now left.
    - intros p Hin.
      destruct Hst as [-> | [-> | ->]]; each_position Hin; simpl; auto. }
  assert (Hinput : forall value target,
             answers_of (fst (input target value st)) = None \/
             mounted (fst (input target value st)) = Some (QuizPage [] "")).
  { intros value. apply (by_positions st).
    - intros p Hp. rewrite (chain_none_input _ _ _ Hp).
      destruct Hst as [-> | [-> | ->]]; now left.
    - intros p Hin.
      destruct Hst as [-> | [-> | ->]]; each_position Hin; simpl; auto. }
  assert (Henter : forall target,
             answers_of (fst (enter target st)) = None \/
             mounted (fst (enter target st)) = Some (QuizPage [] "")).
  { apply (by_positions st).
    - intros p Hp. rewrite (chain_none_enter _ _ Hp).
      destruct Hst as [-> | [-> | ->]]; now left.
    - intros p Hin.
      destruct Hst as [-> | [-> | ->]]; each_position Hin; simpl; auto. }
  destruct ev; simpl; auto.
Qed.

(** C7. The quiz's answers live in the state of the mounted quiz view only.
    A quiz view that is initialised starts with no answers: when the
    document is loaded at a quiz path, and whenever an event brings the quiz
    onto a page that did not show it.  Leaving the quiz for another route
    gives the state a fresh document at that route has, whatever the
    answers were, and coming back shows an empty sequence. *)
Theorem quiz_answers_are_view_local path evs ev to :
  let st := fst (run (boot path) evs) in
  mount QuizView = QuizPage [] "" /\
  (matchRoutes path = Some QuizView -> boot path = quiz_state path [] "") /\
  (answers_of st = None ->
   answers_of (fst (step st ev)) = None \/ answers_of (fst (step st ev)) = Some []) /\
  (matchRoutes to <> Some QuizView ->
   forall answers field,
     navigate to (quiz_state path answers field) = boot to /\
     answers_of (navigate to (quiz_state path answers field)) = None /\
     answers_of (navigate "/quiz" (navigate to (quiz_state path answers field)))
     = Some []).
Proof.
  intros st. split; [reflexivity | split; [|split]].
  - intros H. unfold boot. now rewrite H.
  - intros H.
    pose proof (reachable_pages path evs) as R. fold st in R. clearbody st.
    destruct (step_mounts_fresh_quiz st ev) as [Hn | Hq].
    + destruct R as [loc [-> | [-> | [(answers & field & ->) | ->]]]];
        try discriminate H; exists loc; auto.
    + now left.
    + right. unfold answers_of. now rewrite Hq.
  - intros H answers field.
    rewrite (navigate_away_from_quiz path answers field to H).
    unfold boot, navigate, answers_of. simpl.
    destruct (matchRoutes to) as [[]|]; simpl; try congruence; auto.
Qed.

Lemma quiz_answers_are_view_local_witness :
  answers_of (fst (step (boot "/") (Click (nav_link 1)))) = Some [] /\
  navigate "/challenge" (quiz_state "/" ["a"; "ab"] "ab") = boot "/challenge".
Proof.
  destruct (quiz_answers_are_view_local "/" [] (Click (nav_link 1)) "/challenge")
    as (_ & _ & Hstep & Hleave).
  split.
  - destruct (Hstep eq_refl) as [H | H]; [discriminate H | exact H].
  - apply Hleave. discriminate.
Defined.

(** ** Paths outside the routes *)

Lemma lower_slash c : lower c = "/"%char <-> c = "/"%char.
Proof.
  destruct c as [[] [] [] [] [] [] [] []]; vm_compute; split; congruence.
Qed.

Lemma ascii_eqb_ci_spec p x : lower p = p -> ascii_eqb_ci p x = Ascii.eqb (lower x) p.
Proof. intros H. unfold ascii_eqb_ci. rewrite H. apply Ascii.eqb_sym. Qed.

Lemma trim_empty_iff s : trim_trailing_slashes s = "" <-> all_slashes s = true.
Proof.
  induction s as [|c s IH]; simpl; [tauto|].
  destruct (Ascii.eqb c "/") eqn:Hc; simpl.
  - destruct (String.eqb (trim_trailing_slashes s) "") eqn:Hs.
    + apply String.eqb_eq in Hs. tauto.
    + apply String.eqb_neq in Hs. split; [discriminate|]. intros H. tauto.
  - split; discriminate.
Qed.

Lemma all_slashes_lower s : all_slashes (lower_string s) = all_slashes s.
Proof.
  induction s as [|c s IH]; simpl; [reflexivity|]. rewrite IH. f_equal.
  destruct (Ascii.eqb c "/") eqn:Hc.
  - apply Ascii.eqb_eq in Hc. subst c. reflexivity.
  - apply Ascii.eqb_neq in Hc. apply Ascii.eqb_neq. now rewrite lower_slash.
Qed.

Lemma normalize_empty_iff s : normalize s = "" <-> all_slashes s = true.
Proof. unfold normalize. now rewrite trim_empty_iff, all_slashes_lower. Qed.

Lemma normalize_cons x s :
  normalize (String x s)
  = if Ascii.eqb (lower x) "/" && String.eqb (normalize s) ""
    then "" else String (lower x) (normalize s).
Proof. reflexivity. Qed.

(** A compiled pattern in lower case that does not end in a slash matches
    the pathnames whose normal form it is. *)
Lemma regexp_match_normalize c : forall s,
  c <> "" -> lower_string c = c -> trim_trailing_slashes c = c ->
  (regexp_match c s = true <-> normalize s = c).
Proof.
  induction c as [|p c IH]; intros s Hne Hlow Htrim; [congruence|].
  simpl in Hlow. injection Hlow as Hp Hc.
  simpl in Htrim.
  destruct s as [|x s]; [split; discriminate|].
  rewrite normalize_cons. cbn [regexp_match].
  rewrite (ascii_eqb_ci_spec p x Hp), andb_true_iff, Ascii.eqb_eq.
  destruct c as [|q c].
  - (* the pattern ends here *)
    cbn [regexp_match]. simpl in Htrim.
    assert (Hps : p <> "/"%char).
    { intros ->. discriminate Htrim. }
    rewrite <- normalize_empty_iff.
    destruct (Ascii.eqb (lower x) "/") eqn:Hx; simpl.
    + apply Ascii.eqb_eq in Hx.
      destruct (String.eqb (normalize s) "") eqn:Hs.
      * split; [|discriminate]. intros [E _]. congruence.
      * apply String.eqb_neq in Hs. split; [tauto|]. intros E. now injection E.
    + split; [intros [-> ->]; reflexivity | intros E; now injection E].
  - (* more of the pattern follows *)
    assert (Htrim' : trim_trailing_slashes (String q c) = String q c).
    { destruct (Ascii.eqb p "/" && String.eqb (trim_trailing_slashes (String q c)) "");
        [discriminate Htrim | now injection Htrim]. }
    rewrite (IH s ltac:(discriminate) Hc Htrim').
    destruct (Ascii.eqb (lower x) "/" && String.eqb (normalize s) "") eqn:Hb.
    + apply andb_true_iff in Hb. destruct Hb as [_ Hs]. apply String.eqb_eq in Hs.
      split; [|discriminate]. intros [_ E]. rewrite Hs in E. discriminate E.
    + split; [intros [-> ->]; reflexivity | intros E; now injection E].
Qed.

Lemma regexp_match_root s : s <> "" -> regexp_match "/" s = all_slashes s.
Proof.
  destruct s as [|x s]; [congruence|]. intros _. simpl. f_equal.
  unfold ascii_eqb_ci. change (lower "/") with "/"%char.
  destruct (Ascii.eqb x "/") eqn:Hx.
  - apply Ascii.eqb_eq in Hx. now subst x.
  - apply Ascii.eqb_neq in Hx. apply Ascii.eqb_neq.
    intros E. symmetry in E. apply (proj1 (lower_slash x)) in E. congruence.
Qed.

Lemma decode_units_nonempty x r d : decode_units (x :: r) = Some d -> d <> "".
Proof.
  destruct x as [c|b0]; cbn [decode_units].
  - destruct (decode_units r); simpl; [|discriminate].
    intros H. injection H as <-. discriminate.
  - destruct (b0 <? 128)%nat.
    { destruct (decode_units r); simpl; [|discriminate].
      intros H. injection H as <-. destruct (Nat.eqb b0 47); discriminate. }
    destruct (between 192 223 b0).
    { destruct r as [|[|b1] r1]; try discriminate.
      destruct (well_formed2 b0 b1); [|discriminate].
      destruct (decode_units r1); simpl; [|discriminate].
      intros H. injection H as <-. discriminate. }
    destruct (between 224 239 b0).
    { destruct r as [|[|b1] [|[|b2] r2]]; try discriminate.
      destruct (well_formed3 b0 b1 b2); [|discriminate].
      destruct (decode_units r2); simpl; [|discriminate].
      intros H. injection H as <-. discriminate. }
    destruct (between 240 247 b0); [|discriminate].
    destruct r as [|[|b1] [|[|b2] [|[|b3] r3]]]; try discriminate.
    destruct (well_formed4 b0 b1 b2 b3); [|discriminate].
    destruct (decode_units r3); simpl; [|discriminate].
    intros H. injection H as <-. discriminate.
Qed.

Lemma unescape_nonempty c s l : unescape (String c s) = Some l -> l <> [].
Proof.
  cbn [unescape]. destruct (Ascii.eqb c "%").
  - destruct s as [|h [|l0 rest]]; try discriminate.
    destruct (hex_digit h), (hex_digit l0), (unescape rest); try discriminate.
    intros H. injection H as <-. discriminate.
  - destruct (unescape s); simpl; [|discriminate].
    intros H. injection H as <-. discriminate.
Qed.

(** Decoding never empties a pathname. *)
Lemma decodePath_nonempty s : s <> "" -> decodePath s <> "".
Proof.
  intros Hs. unfold decodePath, decodeURIComponent.
  destruct s as [|c s]; [congruence|].
  destruct (unescape (String c s)) as [l|] eqn:Hu; [|exact Hs].
  destruct (decode_units l) as [d|] eqn:Hd; [|exact Hs].
  pose proof (unescape_nonempty c s l Hu) as Hl.
  destruct l as [|x r]; [congruence|]. now apply (decode_units_nonempty x r).
Qed.

(** A pathname without [%] is left as it is. *)
Lemma unescape_plain s :
  (forall c, In c (list_ascii_of_string s) -> c <> "%"%char) ->
  unescape s = Some (map Literal (list_ascii_of_string s)).
Proof.
  induction s as [|c s IH]; intros H; [reflexivity|].
  cbn [unescape list_ascii_of_string map].
  destruct (Ascii.eqb c "%") eqn:E.
  - apply Ascii.eqb_eq in E. exfalso. apply (H c); simpl; auto.
  - rewrite IH; [reflexivity|]. intros c' Hin. apply H. simpl. auto.
Qed.

Lemma decode_units_literal s :
  decode_units (map Literal (list_ascii_of_string s)) = Some s.
Proof.
  induction s as [|c s IH]; [reflexivity|].
  cbn [list_ascii_of_string map decode_units]. now rewrite IH.
Qed.

Lemma decodePath_plain s :
  (forall c, In c (list_ascii_of_string s) -> c <> "%"%char) -> decodePath s = s.
Proof.
  intros H. unfold decodePath, decodeURIComponent.
  now rewrite (unescape_plain s H), decode_units_literal.
Qed.

(** Which view the first matching route gives, by the normal form of the
    decoded pathname. *)
Lemma first_match_normalize decoded :
  decoded <> "" ->
  first_match routes decoded =
    if String.eqb (normalize decoded) "" then Some HomeView
    else if String.eqb (normalize decoded) "/quiz" then Some QuizView
    else if String.eqb (normalize decoded) "/challenge" then Some ChallengeView
    else None.
Proof.
  intros He. unfold routes, first_match, matchPath.
  change (compilePath "/") with "/". change (compilePath "/quiz") with "/quiz".
  change (compilePath "/challenge") with "/challenge".
  rewrite (regexp_match_root decoded He).
  destruct (all_slashes decoded) eqn:Hs.
  - apply normalize_empty_iff in Hs. now rewrite Hs.
  - assert (Hn : normalize decoded <> "").
    { intros E. apply normalize_empty_iff in E. congruence. }
    apply String.eqb_neq in Hn. rewrite Hn.
    pose proof (regexp_match_normalize "/quiz" decoded
                  ltac:(discriminate) eq_refl eq_refl) as Hq.
    pose proof (regexp_match_normalize "/challenge" decoded
                  ltac:(discriminate) eq_refl eq_refl) as Hc.
    destruct (regexp_match "/quiz" decoded).
    + rewrite (proj1 Hq eq_refl). reflexivity.
    + destruct (String.eqb (normalize decoded) "/quiz") eqn:E.
      { apply String.eqb_eq in E. apply Hq in E. discriminate E. }
      destruct (regexp_match "/challenge" decoded).
      { rewrite (proj1 Hc eq_refl). reflexivity. }
      destruct (String.eqb (normalize decoded) "/challenge") eqn:E'; [|reflexivity].
      apply String.eqb_eq in E'. apply Hc in E'. discriminate E'.
Qed.

(** Which view the router selects, by the canonical form of the pathname. *)
Lemma matchRoutes_normalize pathname :
  matchRoutes pathname =
    if String.eqb (canonical pathname) "" then Some HomeView
    else if String.eqb (canonical pathname) "/quiz" then Some QuizView
    else if String.eqb (canonical pathname) "/challenge" then Some ChallengeView
    else None.
Proof.
  unfold matchRoutes, canonical.
  destruct (String.eqb pathname "") eqn:He.
  - apply String.eqb_eq in He. subst pathname. reflexivity.
  - apply String.eqb_neq in He.
    apply first_match_normalize. now apply decodePath_nonempty.
Qed.

(** No pathname matches two of the declared routes. *)
Lemma routes_exclusive pathname p1 v1 p2 v2 :
  In (p1, v1) routes -> In (p2, v2) routes ->
  matchPath p1 (if String.eqb pathname "" then "/" else pathname) = true ->
  matchPath p2 (if String.eqb pathname "" then "/" else pathname) = true ->
  v1 = v2.
Proof.
  set (s := if String.eqb pathname "" then "/" else pathname).
  assert (Hs : s <> "").
  { subst s. destruct (String.eqb pathname "") eqn:E; [discriminate|].
    now apply String.eqb_neq. }
  pose proof (regexp_match_normalize "/quiz" s ltac:(discriminate) eq_refl eq_refl) as Hq.
  pose proof (regexp_match_normalize "/challenge" s
                ltac:(discriminate) eq_refl eq_refl) as Hc.
  pose proof (regexp_match_root s Hs) as Hr.
  pose proof (normalize_empty_iff s) as He.
  unfold matchPath.
  intros [E1 | [E1 | [E1 | []]]] [E2 | [E2 | [E2 | []]]];
    injection E1 as <- <-; injection E2 as <- <-; try reflexivity;
    change (compilePath "/") with "/"; change (compilePath "/quiz") with "/quiz";
    change (compilePath "/challenge") with "/challenge"; intros H1 H2;
    rewrite ?Hr in *; rewrite ?Hq, ?Hc in *; rewrite <- ?He in *; congruence.
Qed.

Lemma matchRoutes_none_iff pathname :
  matchRoutes pathname = None <-> ~ In (canonical pathname) [""; "/quiz"; "/challenge"].
Proof.
  rewrite matchRoutes_normalize. simpl.
  destruct (String.eqb (canonical pathname) "") eqn:E1.
  { apply String.eqb_eq in E1. split; [discriminate | intros H; exfalso; auto]. }
  destruct (String.eqb (canonical pathname) "/quiz") eqn:E2.
  { apply String.eqb_eq in E2. split; [discriminate | intros H; exfalso; auto]. }
  destruct (String.eqb (canonical pathname) "/challenge") eqn:E3.
  { apply String.eqb_eq in E3. split; [discriminate | intros H; exfalso; auto 6]. }
  apply String.eqb_neq in E1, E2, E3.
  split; [|reflexivity]. intros _ [H | [H | [H | []]]]; congruence.
Qed.

(** A page is rendered exactly at the pathnames whose canonical form is one of
    the three routes. *)
Lemma page_rendered_iff path :
  Routes (boot path) <> [] <-> In (canonical path) [""; "/quiz"; "/challenge"].
Proof.
  pose proof (matchRoutes_none_iff path) as H. unfold Routes, boot. simpl.
  destruct (matchRoutes path) as [v|]; simpl.
  - split; [|discriminate]. intros _.
    destruct (in_dec string_dec (canonical path) [""; "/quiz"; "/challenge"]) as [Hin|Hn];
      [exact Hin|]. apply H in Hn. discriminate Hn.
  - split; [congruence|]. intros Hin. now apply H in Hin.
Qed.

(** C9, as stated, fails: [/quiz/], [/QUIZ] and [/%71uiz] are none of the
    three paths, yet the router renders the quiz there. *)
Lemma unlisted_paths_render_quiz :
  ("/quiz/" <> "/" /\ "/quiz/" <> "/quiz" /\ "/quiz/" <> "/challenge" /\
   Routes (boot "/quiz/") = [Quiz []]) /\
  ("/QUIZ" <> "/" /\ "/QUIZ" <> "/quiz" /\ "/QUIZ" <> "/challenge" /\
   Routes (boot "/QUIZ") = [Quiz []]) /\
  ("/%71uiz" <> "/" /\ "/%71uiz" <> "/quiz" /\ "/%71uiz" <> "/challenge" /\
   Routes (boot "/%71uiz") = [Quiz []]) /\
  ~ (forall path,
       path <> "/" -> path <> "/quiz" -> path <> "/challenge" ->
       Routes (boot path) = []).
Proof.
  repeat split; try discriminate.
  intros H. specialize (H "/quiz/"). discriminate H; discriminate.
Qed.

(** C9, amended. At every location whose pathname, decoded as the router
    decodes it, in lower case and without trailing slashes, is none of the
    empty string, [/quiz] and [/challenge], the application renders no page:
    there is no fallback route, and the navigation bar and the footer are
    all that is rendered. *)
Theorem unmatched_path_renders_no_page path evs :
  let st := fst (run (boot path) evs) in
  ~ In (canonical (pathname st)) [""; "/quiz"; "/challenge"] ->
  Routes st = [] /\
  App st = Elem "div" [("className", PStr "App")] [Navbar; Footer].
Proof.
  intros st H. apply matchRoutes_none_iff in H.
  pose proof (route_consistent_reachable path evs) as Hc. fold st in Hc.
  unfold route_consistent in Hc. rewrite H in Hc.
  unfold App, Routes. destruct (mounted st); [discriminate Hc|]. split; reflexivity.
Qed.

Lemma unmatched_path_renders_no_page_witness :
  Routes (boot "/rewards") = [] /\
  App (boot "/rewards") = Elem "div" [("className", PStr "App")] [Navbar; Footer].
Proof.
  apply (unmatched_path_renders_no_page "/rewards" []).
  simpl. intros [H | [H | [H | []]]]; discriminate H.
Defined.

(** ** Submitting the quiz *)

(** What the handler of the form does by itself: it prints the answers and
    leaves the state alone; it does not cancel the submission. *)
Lemma submitQuiz_only_logs value answers st :
  fold_left perform (call value (submitQuiz answers))
    {| after := st; prevented := false; seen := [] |}
  = {| after := st; prevented := false;
       seen := [ConsoleLog "Quiz submitted with answers: " answers] |}.
Proof. reflexivity. Qed.

Lemma submit_click_reloads path answers field :
  step (quiz_state path answers field) (Click quiz_submit_button)
  = (boot path,
     [ConsoleLog "Quiz submitted with answers: " answers; DocumentLoad path]).
Proof. reflexivity. Qed.

(** C1 does not hold of the code.  With one answer typed, a click on
    "Submit Quiz" prints the answers, and then, [submitQuiz] having no way to
    call [preventDefault], the browser sends the form: the document is loaded
    again at [/quiz] and the answer sequence is empty. *)
Theorem quiz_submit_reloads_document :
  let st := fst (run (boot "/quiz") [Key quiz_input "p"]) in
  answers_of st = Some ["p"] /\
  step st (Click quiz_submit_button)
  = (boot "/quiz",
     [ConsoleLog "Quiz submitted with answers: " ["p"]; DocumentLoad "/quiz"]) /\
  answers_of (fst (step st (Click quiz_submit_button))) = Some [] /\
  answers_of (fst (step st (Click quiz_submit_button))) <> answers_of st.
Proof.
  repeat split. discriminate.
Qed.

(** ** What one event can do *)

Lemma challenges_fixed_shape st :
  challenges_fixed st ->
  exists loc, st = {| pathname := loc; mounted := None |} \/
              st = {| pathname := loc; mounted := Some HomePage |} \/
              (exists answers field, st = quiz_state loc answers field) \/
              st = {| pathname := loc; mounted := Some (ChallengePage initial_challenges) |}.
Proof.
  intros H. destruct st as [loc [[|answers field|cs]|]]; exists loc; auto.
  - right; right; left. now exists answers, field.
  - rewrite (H cs eq_refl). auto.
Qed.

Ltac to_link to := right; left; exists to; split; [simpl; tauto | reflexivity].

Ltac step_case :=
  first
    [ left; reflexivity
    | to_link "/" | to_link "/quiz" | to_link "/challenge"
    | right; right; left; do 3 eexists;
      split; [reflexivity
             | split; [reflexivity
                      | unfold is_submission, is_submit_click; simpl; tauto]]
    | right; right; right; do 4 eexists;
      split; [reflexivity | split; [reflexivity | left; reflexivity]] ].

(** Every transition of the application: nothing happens; or a link of the
    navigation bar is followed inside the page; or the quiz is submitted; or
    the quiz's text field changes. *)
Lemma step_cases st ev :
  challenges_fixed st ->
  step st ev = (st, []) \/
  (exists to, In to (link_targets Navbar) /\ step st ev = (navigate to st, [])) \/
  (exists path answers field,
      st = quiz_state path answers field /\
      step st ev = (boot path, [ConsoleLog "Quiz submitted with answers: " answers;
                                DocumentLoad path]) /\
      is_submission ev) \/
  (exists path answers field value,
      st = quiz_state path answers field /\
      step st ev = (quiz_state path (answers ++ [value]) value, []) /\
      is_change_to field value ev).
Proof.
  intros Hfix. destruct (challenges_fixed_shape st Hfix) as [loc Hst].
  destruct ev as [target | target value | target c | target].
  - revert target. apply (by_positions st).
    + intros p Hp. left. simpl. now apply chain_none_click.
    + intros p Hin.
      destruct Hst as [-> | [-> | [(answers & field & ->) | ->]]];
        each_position Hin; step_case.
  - revert target. apply (by_positions st).
    + intros p Hp. left. simpl. now apply chain_none_input.
    + intros p Hin.
      destruct Hst as [-> | [-> | [(answers & field & ->) | ->]]];
        each_position Hin; step_case.
  - revert target. apply (by_positions st).
    + intros p Hp. left. simpl. now apply chain_none_input.
    + intros p Hin.
      destruct Hst as [-> | [-> | [(answers & field & ->) | ->]]];
        each_position Hin;
        first [ left; reflexivity
              | right; right; right; do 4 eexists;
                split; [reflexivity | split; [reflexivity | right; eexists; split; reflexivity]] ].
  - revert target. apply (by_positions st).
    + intros p Hp. left. simpl. now apply chain_none_enter.
    + intros p Hin.
      destruct Hst as [-> | [-> | [(answers & field & ->) | ->]]];
        each_position Hin; step_case.
Qed.

Lemma run_invariant (P : state -> Prop) :
  (forall st ev, P st -> P (fst (step st ev))) ->
  forall evs st, P st -> P (fst (run st evs)).
Proof.
  intros Hstep. induction evs as [|ev evs IH]; simpl; intros st H; auto.
  pose proof (Hstep st ev H) as Hs.
  destruct (step st ev) as [st1 out1]. simpl in Hs.
  specialize (IH st1 Hs). now destruct (run st1 evs).
Qed.

Lemma run_app evs1 : forall evs2 st,
  run st (evs1 ++ evs2)
  = (fst (run (fst (run st evs1)) evs2),
     snd (run st evs1) ++ snd (run (fst (run st evs1)) evs2)).
Proof.
  induction evs1 as [|ev evs1 IH]; intros evs2 st.
  - simpl. now destruct (run st evs2).
  - simpl. destruct (step st ev) as [st1 out1]. rewrite IH.
    destruct (run st1 evs1) as [st2 out2]. simpl.
    now rewrite app_assoc.
Qed.

Lemma challenges_fixed_boot path : challenges_fixed (boot path).
Proof. apply (challenges_fixed_reachable path []). Qed.

Lemma challenges_fixed_quiz path answers field :
  challenges_fixed (quiz_state path answers field).
Proof. intros cs H. discriminate H. Qed.

Lemma challenges_fixed_navigate to st :
  challenges_fixed st -> challenges_fixed (navigate to st).
Proof.
  intros H cs. unfold navigate, challenges_of. simpl.
  destruct (matchRoutes to) as [v|]; [|discriminate].
  destruct st as [loc [pg|]]; simpl.
  - destruct (view_eqb (view_of pg) v).
    + intros Hc. apply H. exact Hc.
    + destruct v; simpl; congruence.
  - destruct v; simpl; congruence.
Qed.

Lemma challenges_fixed_step st ev :
  challenges_fixed st -> challenges_fixed (fst (step st ev)).
Proof.
  intros H.
  destruct (step_cases st ev H)
    as [-> | [(to & _ & ->) | [(p & a & f & _ & -> & _) | (p & a & f & v & _ & -> & _)]]];
    simpl; auto using challenges_fixed_boot, challenges_fixed_navigate,
                      challenges_fixed_quiz.
Qed.

(** ** The text field and the stored answers *)

(** X5. After any sequence of events, when the quiz is on the page its text
    field holds the answer stored last (and is empty when none is stored). *)
Theorem field_holds_last_answer path evs answers field :
  mounted (fst (run (boot path) evs)) = Some (QuizPage answers field) ->
  field = last answers "".
Proof.
  assert (H : challenges_fixed (fst (run (boot path) evs)) /\
              field_shows_last_answer (fst (run (boot path) evs))).
  { apply (run_invariant (fun st => challenges_fixed st /\ field_shows_last_answer st)).
    - intros st ev [Hfix Hlast]. split; [now apply challenges_fixed_step|].
      destruct (step_cases st ev Hfix)
        as [-> | [(to & _ & ->) | [(p & a & f & _ & -> & _) | (p & a & f & v & _ & -> & _)]]];
        simpl.
      + exact Hlast.
      + intros a f. unfold navigate. simpl.
        destruct (matchRoutes to) as [w|]; [|discriminate].
        destruct st as [loc [pg|]]; simpl.
        * destruct (view_eqb (view_of pg) w).
          { intros E. injection E as ->. now apply (Hlast a f). }
          { destruct w; simpl; intros E; try discriminate E.
            now injection E as <- <-. }
        * destruct w; simpl; intros E; try discriminate E.
          now injection E as <- <-.
      + intros a' f'. unfold boot. simpl.
        destruct (matchRoutes p) as [[]|]; simpl; intros E; try discriminate E.
        now injection E as <- <-.
      + intros a' f' E. injection E as <- <-. now rewrite last_last.
    - split; [apply challenges_fixed_boot|].
      intros a f. unfold boot. simpl.
      destruct (matchRoutes path) as [[]|]; simpl; intros E; try discriminate E.
      now injection E as <- <-. }
  intros Hm. now apply (proj2 H).
Qed.

Lemma field_holds_last_answer_witness : "ab" = last ["a"; "ab"] "".
Proof.
  apply (field_holds_last_answer "/quiz" (typing "ab") ["a"; "ab"] "ab").
  reflexivity.
Defined.

(** X6. After any sequence of events, the only events with an effect
    outside the components are those that submit the quiz: a click on
    "Submit Quiz", or the Enter key in the text field or on that button.  Each
    prints the message and the stored answers once, and the document is
    loaded again at the current location.  No click elsewhere, no edit, no
    character typed into the field prints or loads anything. *)
Theorem only_quiz_submission_has_effects path evs ev :
  let st := fst (run (boot path) evs) in
  typed_into_field st ev ->
  (forall answers field,
      mounted st = Some (QuizPage answers field) ->
      is_submission ev ->
      step st ev = (boot (pathname st),
                    [ConsoleLog "Quiz submitted with answers: " answers;
                     DocumentLoad (pathname st)])) /\
  (snd (step st ev) = [] \/
   exists answers field,
     mounted st = Some (QuizPage answers field) /\
     is_submission ev /\
     step st ev = (boot (pathname st),
                   [ConsoleLog "Quiz submitted with answers: " answers;
                    DocumentLoad (pathname st)])).
Proof.
  intros st _. split.
  - clearbody st. intros answers field Hm Hs. destruct st as [loc m].
    simpl in Hm. subst m.
    destruct Hs as [[-> | ->] | [-> | ->]]; reflexivity.
  - destruct (step_cases st ev (challenges_fixed_reachable path evs))
      as [-> | [(to & _ & ->) | [(p & a & f & E & -> & Hs) | (p & a & f & v & _ & -> & _)]]];
      auto.
    right. exists a, f. rewrite E. auto.
Qed.

Lemma only_quiz_submission_has_effects_witness :
  step (fst (run (boot "/quiz") (typing "tin"))) (Enter quiz_input)
  = (boot "/quiz",
     [ConsoleLog "Quiz submitted with answers: " ["t"; "ti"; "tin"];
      DocumentLoad "/quiz"]) /\
  snd (step (fst (run (boot "/quiz") (typing "ti"))) (Key quiz_input "n")) = [].
Proof.
  split.
  - apply (proj1 (only_quiz_submission_has_effects "/quiz" (typing "tin")
                    (Enter quiz_input) I) ["t"; "ti"; "tin"] "tin").
    + reflexivity.
    + right. now left.
  - destruct (proj2 (only_quiz_submission_has_effects "/quiz" (typing "ti")
                       (Key quiz_input "n") (conj eq_refl eq_refl)))
      as [H | (a & f & _ & [[H | H] | [H | H]] & _)];
      [exact H | discriminate H ..].
Defined.

(** X7. After any sequence of events, one more event leaves the stored
    answers as they are, or appends the one value a change of the text field
    brings, or (when it submits the quiz) starts again from the empty
    sequence; stored answers are never edited or removed one by one. *)
Theorem answers_only_grow_or_restart path evs ev answers answers' :
  let st := fst (run (boot path) evs) in
  typed_into_field st ev ->
  answers_of st = Some answers ->
  answers_of (fst (step st ev)) = Some answers' ->
  answers' = answers \/
  (exists value, answers' = answers ++ [value] /\ is_change_to (field_of st) value ev) \/
  (answers' = [] /\ is_submission ev).
Proof.
  intros st _ Ha Ha'.
  destruct (step_cases st ev (challenges_fixed_reachable path evs))
    as [E | [(to & _ & E) | [(p & a & f & Est & E & Hs) | (p & a & f & v & Est & E & Hc)]]];
    rewrite E in Ha'; simpl in Ha'.
  - left. congruence.
  - left. clearbody st. destruct st as [loc [[|a f|cs]|]]; try discriminate Ha.
    unfold answers_of in Ha. simpl in Ha.
    unfold navigate, answers_of in Ha'. simpl in Ha'.
    destruct (matchRoutes to) as [[]|]; simpl in Ha'; congruence.
  - right; right. split; [|exact Hs].
    unfold boot, answers_of in Ha'. simpl in Ha'.
    destruct (matchRoutes p) as [[]|]; simpl in Ha'; congruence.
  - right; left. exists v. clearbody st. subst st.
    unfold answers_of in Ha, Ha'. simpl in Ha, Ha'.
    injection Ha as <-. injection Ha' as <-. auto.
Qed.

Lemma answers_only_grow_or_restart_witness :
  ["a"; "ab"] = ["a"] \/
  (exists value, ["a"; "ab"] = ["a"] ++ [value] /\
                 is_change_to (field_of (fst (run (boot "/quiz") (typing "a")))) value
                   (Key quiz_input "b")) \/
  (["a"; "ab"] = [] /\ is_submission (Key quiz_input "b")).
Proof.
  apply (answers_only_grow_or_restart "/quiz" (typing "a") (Key quiz_input "b")
           ["a"] ["a"; "ab"]); [split; reflexivity | reflexivity | reflexivity].
Defined.

Lemma enter_submit_reloads path answers field :
  step (quiz_state path answers field) (Enter quiz_input)
  = (boot path,
     [ConsoleLog "Quiz submitted with answers: " answers; DocumentLoad path]).
Proof. reflexivity. Qed.

(** X8. Typing an answer made of typeable characters into a fresh quiz and
    submitting, by the button or by the Enter key, prints every intermediate
    content of the field, shortest first, not the final answer alone;
    afterwards the quiz is as freshly loaded. *)
Theorem submit_prints_every_prefix w :
  forallb typeable (list_ascii_of_string w) = true ->
  run (boot "/quiz") (typing w ++ [Click quiz_submit_button])
  = (boot "/quiz",
     [ConsoleLog "Quiz submitted with answers: " (prefixes w); DocumentLoad "/quiz"]) /\
  run (boot "/quiz") (typing w ++ [Enter quiz_input])
  = (boot "/quiz",
     [ConsoleLog "Quiz submitted with answers: " (prefixes w); DocumentLoad "/quiz"]).
Proof.
  intros _. split; rewrite run_app;
    change (boot "/quiz") with (quiz_state "/quiz" [] "") at 1 2 3;
    rewrite run_typing; cbn [fst snd run].
  - rewrite submit_click_reloads. simpl. now rewrite map_id.
  - rewrite enter_submit_reloads. simpl. now rewrite map_id.
Qed.

Lemma submit_prints_every_prefix_witness :
  run (boot "/quiz") (typing "glass" ++ [Enter quiz_input])
  = (boot "/quiz",
     [ConsoleLog "Quiz submitted with answers: " ["g"; "gl"; "gla"; "glas"; "glass"];
      DocumentLoad "/quiz"]).
Proof.
  apply (proj2 (submit_prints_every_prefix "glass" eq_refl)).
Defined.

(** ** The page and the location *)


(** X10. The location only ever is the path the document was loaded at or
    one of the three targets of the navigation bar. *)
Theorem location_stays_on_known_paths path evs :
  let st := fst (run (boot path) evs) in
  pathname st = path \/ In (pathname st) ["/"; "/quiz"; "/challenge"].
Proof.
  intros st. subst st.
  assert (H : challenges_fixed (fst (run (boot path) evs)) /\
              (pathname (fst (run (boot path) evs)) = path \/
               In (pathname (fst (run (boot path) evs))) (link_targets Navbar))).
  { apply (run_invariant
             (fun st => challenges_fixed st /\
                        (pathname st = path \/ In (pathname st) (link_targets Navbar)))).
    - intros st ev [Hfix Hp]. split; [now apply challenges_fixed_step|].
      destruct (step_cases st ev Hfix)
        as [-> | [(to & Hto & ->) | [(p & a & f & -> & -> & _) | (p & a & f & v & -> & -> & _)]]];
        simpl; auto.
    - split; [apply challenges_fixed_boot | now left]. }
  exact (proj2 H).
Qed.

(** ** The route table *)

Lemma first_match_some rs p v :
  first_match rs p = Some v -> exists pat, In (pat, v) rs /\ matchPath pat p = true.
Proof.
  induction rs as [|[pat w] rs IH]; simpl; [discriminate|].
  destruct (matchPath pat p) eqn:E.
  - intros H. injection H as ->. exists pat. auto.
  - intros H. destruct (IH H) as (pat' & Hin & Hm). exists pat'. auto.
Qed.

Lemma first_match_none rs p :
  first_match rs p = None -> forall pat v, In (pat, v) rs -> matchPath pat p = false.
Proof.
  induction rs as [|[pat w] rs IH]; simpl; [tauto|].
  destruct (matchPath pat p) eqn:E; [discriminate|].
  intros H pat' v [Hin | Hin]; [congruence | eauto].
Qed.

Lemma no_route_matches_empty pat v : In (pat, v) routes -> matchPath pat "" = false.
Proof. intros [E | [E | [E | []]]]; injection E as <- <-; reflexivity. Qed.

Lemma routes_exclusive_any p p1 v1 p2 v2 :
  In (p1, v1) routes -> In (p2, v2) routes ->
  matchPath p1 p = true -> matchPath p2 p = true -> v1 = v2.
Proof.
  intros H1 H2 M1 M2. destruct (String.eqb p "") eqn:E.
  - apply String.eqb_eq in E. subst p.
    rewrite (no_route_matches_empty p1 v1 H1) in M1. discriminate M1.
  - apply (routes_exclusive p p1 v1 p2 v2 H1 H2); now rewrite E.
Qed.

(** X2. No pathname matches two of the declared routes, so the order in
    which the three routes are written under [<Routes>] does not matter:
    any reordering of them selects the same view for every pathname. *)
Theorem route_order_is_immaterial rs p :
  Permutation rs routes -> first_match rs p = first_match routes p.
Proof.
  intros Hperm.
  destruct (first_match rs p) as [v|] eqn:E1;
    destruct (first_match routes p) as [w|] eqn:E2; try reflexivity.
  - apply first_match_some in E1, E2.
    destruct E1 as (p1 & H1 & M1). destruct E2 as (p2 & H2 & M2).
    f_equal. apply (routes_exclusive_any p p1 v p2 w); auto.
    now apply (Permutation_in _ Hperm).
  - apply first_match_some in E1. destruct E1 as (p1 & H1 & M1).
    apply (Permutation_in _ Hperm) in H1.
    rewrite (first_match_none routes p E2 p1 v H1) in M1. discriminate M1.
  - apply first_match_some in E2. destruct E2 as (p2 & H2 & M2).
    apply (Permutation_in _ (Permutation_sym Hperm)) in H2.
    rewrite (first_match_none rs p E1 p2 w H2) in M2. discriminate M2.
Qed.

Lemma route_order_is_immaterial_witness :
  first_match (rev routes) "/Challenge/" = first_match routes "/Challenge/".
Proof.
  apply (route_order_is_immaterial (rev routes) "/Challenge/").
  apply Permutation_sym, Permutation_rev.
Defined.

(** X3. Which view a pathname selects, once the router has decoded its
    percent escapes: the home view when it is empty or made of slashes only,
    the quiz when it is [/quiz] and the challenge view when it is
    [/challenge], in any letter case and followed by any number of
    slashes. *)
Theorem view_selected_by_pathname pathname v :
  matchRoutes pathname = Some v <->
  canonical pathname = match v with
                       | HomeView => ""
                       | QuizView => "/quiz"
                       | ChallengeView => "/challenge"
                       end.
Proof.
  rewrite matchRoutes_normalize.
  destruct (String.eqb (canonical pathname) "") eqn:E1.
  { apply String.eqb_eq in E1. rewrite E1.
    destruct v; split; intros H; try discriminate H; reflexivity. }
  destruct (String.eqb (canonical pathname) "/quiz") eqn:E2.
  { apply String.eqb_eq in E2. rewrite E2.
    destruct v; split; intros H; try discriminate H; reflexivity. }
  destruct (String.eqb (canonical pathname) "/challenge") eqn:E3.
  { apply String.eqb_eq in E3. rewrite E3.
    destruct v; split; intros H; try discriminate H; reflexivity. }
  apply String.eqb_neq in E1, E2, E3.
  destruct v; split; intros H; try discriminate H; congruence.
Qed.

Lemma view_selected_by_pathname_witness : matchRoutes "/%51uiz//" = Some QuizView.
Proof.
  apply (proj2 (view_selected_by_pathname "/%51uiz//" QuizView)). reflexivity.
Defined.

(** ** Rendering a list of challenges *)

Lemma challenge_item_elements c :
  elements_by_tag "li" (challenge_item c) = [challenge_item c] /\
  length (elements_by_tag "button" (challenge_item c)) = 1%nat /\
  textContent (challenge_item c) = item_text c.
Proof. repeat split. Qed.

Lemma challenge_li_elements cs :
  elements_by_tag "li" (Challenge cs) = map challenge_item cs.
Proof.
  unfold Challenge. cbn [elements_by_tag String.eqb Ascii.eqb Bool.eqb flat_map app].
  rewrite app_nil_r.
  induction cs as [|c cs IH]; [reflexivity|].
  cbn [map flat_map]. rewrite IH.
  now rewrite (proj1 (challenge_item_elements c)).
Qed.

Lemma challenge_button_count cs :
  length (elements_by_tag "button" (Challenge cs)) = length cs.
Proof.
  unfold Challenge. cbn [elements_by_tag String.eqb Ascii.eqb Bool.eqb flat_map app].
  rewrite app_nil_r.
  induction cs as [|c cs IH]; [reflexivity|].
  cbn [map flat_map]. rewrite length_app, IH.
  now rewrite (proj1 (proj2 (challenge_item_elements c))).
Qed.

(** X4. For any list of challenge records with safe-integer ids and
    rewards and non-empty descriptions, the challenge view renders one list
    item per record, in the order of the list, keyed by the record's id and
    showing its description, its reward and one "Accept Challenge" button;
    for the empty list it renders no item. *)
Theorem challenge_items_follow_the_list cs :
  Forall plain_challenge cs ->
  let items := elements_by_tag "li" (Challenge cs) in
  items = map challenge_item cs /\
  length items = length cs /\
  map textContent items = map item_text cs /\
  map (fun li => get_prop "key" (props_of li)) items
  = map (fun c => Some (PNum (id c))) cs /\
  length (elements_by_tag "button" (Challenge cs)) = length cs.
Proof.
  intros _ items. subst items. rewrite challenge_li_elements. repeat split.
  - apply length_map.
  - rewrite map_map. apply map_ext. intros c.
    apply (proj2 (proj2 (challenge_item_elements c))).
  - rewrite map_map. reflexivity.
  - apply challenge_button_count.
Qed.

Lemma challenge_items_follow_the_list_witness :
  map textContent (elements_by_tag "li" (Challenge initial_challenges))
  = map item_text initial_challenges.
Proof.
  apply (challenge_items_follow_the_list initial_challenges).
  repeat constructor; simpl; try lia; discriminate.
Defined.
